(** * Camera coverage check: a shallow embedding and its properties

    The program decides whether a set of hardware cameras, each working on a
    closed distance interval while the light level stays inside a closed
    light interval, covers a required rectangle of (distance, light) values.

    A TypeScript [number] is modelled as a rational ([Q]): the inputs are
    doubles, which are rationals, and the comparisons [<], [>], [<=], [>=]
    are exact on them.  Numeric equality ([===] on numbers, [SameValueZero]
    inside a [Set]) is [Qeq].  The one rounded operation of the program is
    the midpoint [(a + b) / 2]: [canCoverRequirements] takes it exactly,
    [canCoverRequirementsDouble] takes it in binary64 arithmetic, and the
    two give the same result whenever no midpoint is rounded onto a boundary
    or lost to overflow. *)

From Stdlib Require Import List Bool String Arith ZArith QArith Lqa Lia Permutation Sorted.
From Stdlib Require Import SpecFloat.
Import ListNotations.
Open Scope Q_scope.

(** ** Data model *)

Module HardwareCamera.
Record t : Type := mk {
  id : string;
  minDistance : Q;
  maxDistance : Q;
  minLightLevel : Q;
  maxLightLevel : Q
}.
End HardwareCamera.

Module SoftwareCameraRequirements.
Record t : Type := mk {
  minDistance : Q;
  maxDistance : Q;
  minLightLevel : Q;
  maxLightLevel : Q
}.
End SoftwareCameraRequirements.

Module HC := HardwareCamera.
Module Req := SoftwareCameraRequirements.

(** ** Comparisons of numbers *)

(** [a <= b] *)
Definition leb (a b : Q) : bool := Qle_bool a b.
(** [a < b], which is also [b > a] *)
Definition ltb (a b : Q) : bool := negb (Qle_bool b a).

(** ** [Array.prototype.sort] with a comparator [(a, b) => key a - key b]

    The sort is stable; every stable sort returns the same array, so it is
    modelled by a stable insertion sort: an element is placed before the
    elements that follow it in the input and have an equal key. *)

Section Sort.
Context {A : Type} (key : A -> Q).

Fixpoint insert (x : A) (l : list A) : list A :=
  match l with
  | [] => [x]
  | y :: l' => if leb (key x) (key y) then x :: l else y :: insert x l'
  end.

Definition sort (l : list A) : list A := fold_right insert [] l.

(** The order in which [sort] leaves its result. *)
Definition keyLe (x y : A) : Prop := key x <= key y.
End Sort.

(** ** [Set<number>]: insertion-ordered, without numerically equal duplicates *)

Definition set_has (s : list Q) (x : Q) : bool := existsb (Qeq_bool x) s.

Definition set_add (s : list Q) (x : Q) : list Q :=
  if set_has s x then s else s ++ [x].

(** ** [canCoverDistanceRange] *)

(** The body of the [for ... of] loop over the sorted cameras, with the
    mutable [coveredUpTo] passed along. *)
Fixpoint sweep (maxDistance coveredUpTo : Q) (sortedCameras : list HC.t) : bool :=
  match sortedCameras with
  | [] => false
  | camera :: rest =>
      if ltb coveredUpTo (HC.minDistance camera) then false
      else
        let coveredUpTo' :=
          if ltb coveredUpTo (HC.maxDistance camera)
          then HC.maxDistance camera else coveredUpTo in
        if leb maxDistance coveredUpTo' then true
        else sweep maxDistance coveredUpTo' rest
  end.

Definition canCoverDistanceRange
    (minDistance maxDistance : Q) (cameras : list HC.t) : bool :=
  let sortedCameras := sort HC.minDistance cameras in
  sweep maxDistance minDistance sortedCameras.

(** ** [canCoverRequirements] *)

Definition relevantCameras (requirements : Req.t) (hardwareCameras : list HC.t)
    : list HC.t :=
  filter
    (fun camera =>
       negb (ltb (HC.maxLightLevel camera) (Req.minLightLevel requirements)
             || ltb (Req.maxLightLevel requirements) (HC.minLightLevel camera)))
    hardwareCameras.

(** One call of the [forEach] callback. *)
Definition addCameraBoundaries (requirements : Req.t)
    (lightBoundaries : list Q) (camera : HC.t) : list Q :=
  let s1 :=
    if ltb (Req.minLightLevel requirements) (HC.minLightLevel camera)
       && ltb (HC.minLightLevel camera) (Req.maxLightLevel requirements)
    then set_add lightBoundaries (HC.minLightLevel camera)
    else lightBoundaries in
  if ltb (Req.minLightLevel requirements) (HC.maxLightLevel camera)
     && ltb (HC.maxLightLevel camera) (Req.maxLightLevel requirements)
  then set_add s1 (HC.maxLightLevel camera)
  else s1.

Definition lightBoundaries (requirements : Req.t) (relevant : list HC.t)
    : list Q :=
  fold_left (addCameraBoundaries requirements) relevant
    (set_add (set_add [] (Req.minLightLevel requirements))
             (Req.maxLightLevel requirements)).

Definition sortedLightBoundaries (requirements : Req.t) (relevant : list HC.t)
    : list Q :=
  sort (fun x => x) (lightBoundaries requirements relevant).

(** [(lowerLight + upperLight) / 2] taken exactly; [midpointDouble] below is
    the same expression in binary64 arithmetic. *)
Definition midpoint (lowerLight upperLight : Q) : Q :=
  (lowerLight + upperLight) / 2.

Definition camerasForLightLevel (midpointLight : Q) (relevant : list HC.t)
    : list HC.t :=
  filter
    (fun camera =>
       leb (HC.minLightLevel camera) midpointLight
       && leb midpointLight (HC.maxLightLevel camera))
    relevant.

(** The loop [for (i = 0; i < sorted.length - 1; i++)] over the pairs
    [(sorted[i], sorted[i + 1])]. *)
Fixpoint checkSegments (requirements : Req.t) (relevant : list HC.t)
    (sorted : list Q) : bool :=
  match sorted with
  | lowerLight :: ((upperLight :: _) as rest) =>
      if negb (canCoverDistanceRange
                 (Req.minDistance requirements)
                 (Req.maxDistance requirements)
                 (camerasForLightLevel (midpoint lowerLight upperLight) relevant))
      then false
      else checkSegments requirements relevant rest
  | _ => true
  end.

Definition canCoverRequirements (requirements : Req.t)
    (hardwareCameras : list HC.t) : bool :=
  let relevant := relevantCameras requirements hardwareCameras in
  if Nat.eqb (List.length relevant) 0 then false
  else checkSegments requirements relevant
         (sortedLightBoundaries requirements relevant).

(** ** The example data of the source *)

Definition basicRequirements : Req.t := Req.mk 1 10 10 1000.

Definition basicCameras : list HC.t :=
  [ HC.mk "cam1"%string 1 5 10 1000; HC.mk "cam2"%string 4 10 10 1000 ].

Definition gapCameras : list HC.t :=
  [ HC.mk "cam1"%string 1 4 10 1000; HC.mk "cam2"%string 6 10 10 1000 ].

Definition advancedRequirements : Req.t := Req.mk 1 15 5 2000.

Definition advancedCameras : list HC.t :=
  [ HC.mk "lowLightCam"%string 1 8 5 500;
    HC.mk "midRangeCam"%string 3 12 100 1500;
    HC.mk "brightLightCam"%string 5 15 800 2000 ].

(** ** Specification vocabulary *)

(** The value of [coveredUpTo] after the loop body has looked at [camera]. *)
Definition extend (coveredUpTo : Q) (camera : HC.t) : Q :=
  if ltb coveredUpTo (HC.maxDistance camera)
  then HC.maxDistance camera else coveredUpTo.

(** [reach cams hi t]: starting with coverage up to [t], cameras of [cams]
    that each start at or below the coverage reached so far can, one after
    the other and using at least one camera, push the coverage to [hi]. *)
Inductive reach (cams : list HC.t) (hi : Q) : Q -> Prop :=
| reach_done camera t :
    In camera cams -> HC.minDistance camera <= t ->
    hi <= extend t camera -> reach cams hi t
| reach_step camera t :
    In camera cams -> HC.minDistance camera <= t ->
    reach cams hi (extend t camera) -> reach cams hi t.

(** [camera'] covers at least what [camera] covers on the distance axis. *)
Definition widerDistance (camera camera' : HC.t) : Prop :=
  HC.minDistance camera' <= HC.minDistance camera /\
  HC.maxDistance camera <= HC.maxDistance camera'.

(** [camera'] covers at least what [camera] covers on both axes. *)
Definition wider (camera camera' : HC.t) : Prop :=
  widerDistance camera camera' /\
  HC.minLightLevel camera' <= HC.minLightLevel camera /\
  HC.maxLightLevel camera <= HC.maxLightLevel camera'.

(** Every camera of [cams] has a camera of [cams'] at least as wide on the
    distance axis. *)
Definition dominated (cams cams' : list HC.t) : Prop :=
  forall camera, In camera cams ->
    exists camera', In camera' cams' /\ widerDistance camera camera'.

Definition inDistance (camera : HC.t) (d : Q) : Prop :=
  HC.minDistance camera <= d /\ d <= HC.maxDistance camera.

Definition inLight (camera : HC.t) (x : Q) : Prop :=
  HC.minLightLevel camera <= x /\ x <= HC.maxLightLevel camera.

(** The union of the distance intervals of [cams] contains [[lo, hi]]. *)
Definition coversDistance (lo hi : Q) (cams : list HC.t) : Prop :=
  forall d, lo <= d <= hi -> exists camera, In camera cams /\ inDistance camera d.

(** The union of the coverage regions of [cams] contains the rectangle. *)
Definition coversRectangle (requirements : Req.t) (cams : list HC.t) : Prop :=
  forall d x,
    Req.minDistance requirements <= d <= Req.maxDistance requirements ->
    Req.minLightLevel requirements <= x <= Req.maxLightLevel requirements ->
    exists camera, In camera cams /\ inDistance camera d /\ inLight camera x.

Definition wellFormedCamera (camera : HC.t) : Prop :=
  HC.minDistance camera <= HC.maxDistance camera /\
  HC.minLightLevel camera <= HC.maxLightLevel camera.

Definition wellFormedRequirements (requirements : Req.t) : Prop :=
  Req.minDistance requirements <= Req.maxDistance requirements /\
  Req.minLightLevel requirements <= Req.maxLightLevel requirements.

(** Two cameras with the same distance interval. *)
Definition sameDistance (camera camera' : HC.t) : Prop :=
  HC.minDistance camera = HC.minDistance camera' /\
  HC.maxDistance camera = HC.maxDistance camera'.

(** [x] is in the set [s], up to numeric equality. *)
Definition memQ (s : list Q) (x : Q) : Prop := exists b, In b s /\ b == x.

(** [a] and [b] are [sorted[i]] and [sorted[i + 1]] for some [i]. *)
Inductive adjacent : list Q -> Q -> Q -> Prop :=
| adjacent_here a b l : adjacent (a :: b :: l) a b
| adjacent_later y l a b : adjacent l a b -> adjacent (y :: l) a b.

(** The light levels at which [canCoverRequirements] in effect asks for
    distance coverage: every level of the required interval when it has an
    interior, no level when it is a single point, and the midpoint alone
    when its ends are given in the wrong order. *)
Definition sample (requirements : Req.t) (x : Q) : Prop :=
  (Req.minLightLevel requirements < Req.maxLightLevel requirements /\
   Req.minLightLevel requirements <= x <= Req.maxLightLevel requirements) \/
  (Req.maxLightLevel requirements < Req.minLightLevel requirements /\
   x = midpoint (Req.maxLightLevel requirements)
                (Req.minLightLevel requirements)).

(** Every camera of [cams] has a camera of [cams'] at least as wide on both
    axes. *)
Definition lifted (cams cams' : list HC.t) : Prop :=
  forall camera, In camera cams ->
    exists camera', In camera' cams' /\ wider camera camera'.

(** ** Inputs used to exercise the degenerate cases *)

(** A requirement whose light interval is the single level 5. *)
Definition pointLightRequirements : Req.t := Req.mk 1 10 5 5.

(** A camera that works at light level 5 but only far beyond distance 10. *)
Definition farCamera : HC.t := HC.mk "far"%string 100 200 0 10.

(** A camera for distances 1 to 3. *)
Definition nearCamera : HC.t := HC.mk "near"%string 1 3 10 1000.

(** ** Further vocabulary for the coverage check *)

(** Two cameras with the same operating envelope; their [id] is free. *)
Definition sameEnvelope (camera camera' : HC.t) : Prop :=
  HC.minDistance camera = HC.minDistance camera' /\
  HC.maxDistance camera = HC.maxDistance camera' /\
  HC.minLightLevel camera = HC.minLightLevel camera' /\
  HC.maxLightLevel camera = HC.maxLightLevel camera'.

(** The camera does not work at any light level of the requirement. *)
Definition outsideLight (requirements : Req.t) (camera : HC.t) : Prop :=
  HC.maxLightLevel camera < Req.minLightLevel requirements \/
  Req.maxLightLevel requirements < HC.minLightLevel camera.


(** ** The mocked deadline endpoint and the polling service

    Times are the integer milliseconds of [Date.prototype.getTime] and
    [Date.now]; the quotient by 1000 followed by [Math.floor] is the
    flooring division of [Z], which the floating-point computation agrees
    with on every pair of real dates. *)

(** [String.prototype.endsWith]. *)
Definition endsWith (s searchString : string) : bool :=
  let n := String.length s in
  let m := String.length searchString in
  Nat.leb m n && String.eqb (substring (n - m) m s) searchString.

(** [new Date('2025-12-31T23:59:59').getTime()]: the string carries no
    offset, so it is read as local time; [timezoneOffset] is the value of
    [getTimezoneOffset()] at that date, in minutes. *)
Definition targetDate (timezoneOffset : Z) : Z :=
  (1767225599000 + timezoneOffset * 60000)%Z.

(** [Math.max(0, Math.floor((targetDate.getTime() - now.getTime()) / 1000))] *)
Definition secondsLeftAt (target now : Z) : Z :=
  Z.max 0 ((target - now) / 1000).

Module HttpResponse.
Record body : Type := mkBody { secondsLeft : Z }.
Record t : Type := mk {
  responseBody : body;
  status : Z;
  headers : list (string * string)
}.
End HttpResponse.

Section Interceptor.
(** The request type with its [url], the observables, [of] and the
    backend handler [next] are those of the HTTP framework. *)
Variables (HttpRequest Observable : Type).
Variable url : HttpRequest -> string.
Variable rxOf : HttpResponse.t -> Observable.

Definition deadlineMockInterceptor (timezoneOffset now : Z)
    (req : HttpRequest) (next : HttpRequest -> Observable) : Observable :=
  if endsWith (url req) "/api/deadline" then
    let secondsLeft := secondsLeftAt (targetDate timezoneOffset) now in
    rxOf (HttpResponse.mk (HttpResponse.mkBody secondsLeft) 200
            [("Content-Type"%string, "application/json"%string)])
  else next req.
End Interceptor.

Module DeadlineService.
(** The two signals of the service. *)
Record t : Type := mk {
  secondsLeft : Z;
  targetDate : string
}.

(** The signals as the field initialisers leave them. *)
Definition initial : t := mk 0 EmptyString.

Section Tap.
(** [new Date(ms).toString()], which depends on the locale. *)
Variable dateToString : Z -> string.

(** The callback given to [tap]; [dateNow] is the value of [Date.now()]
    when it runs. *)
Definition onResponse (dateNow : Z) (response : HttpResponse.body) (_ : t) : t :=
  mk (HttpResponse.secondsLeft response)
     (dateToString (dateNow + HttpResponse.secondsLeft response * 1000)%Z).
End Tap.
End DeadlineService.

(** ** The midpoint in floating point

    The source computes [(lowerLight + upperLight) / 2] on IEEE 754
    binary64 numbers: the sum is rounded to the nearest double (ties to
    even), it overflows to an infinity, and the halving is rounded again.
    The inputs of the program are doubles, that is rationals that binary64
    represents exactly, and their comparisons are exact; the midpoint is the
    one place where the arithmetic of doubles differs from that of
    rationals.  It is computed here with the Standard Library's
    specification of binary64 arithmetic ([SpecFloat], precision 53,
    exponent bound 1024). *)

(** The values a midpoint can take. *)
Inductive number : Type :=
| Finite (q : Q)
| PlusInfinity
| MinusInfinity
| NotANumber.

(** [x <= y] on these values; every comparison with [NaN] is false. *)
Definition number_leb (x y : number) : bool :=
  match x, y with
  | NotANumber, _ | _, NotANumber => false
  | Finite a, Finite b => leb a b
  | MinusInfinity, _ => true
  | _, PlusInfinity => true
  | _, _ => false
  end.

Definition integerFloat (n : Z) : spec_float :=
  match n with
  | Z0 => S754_zero false
  | Zpos p => S754_finite false p 0
  | Zneg p => S754_finite true p 0
  end.

(** The double nearest to a rational (the rational itself when it is a
    double), as the correctly rounded quotient of its numerator by its
    denominator. *)
Definition toFloat (q : Q) : spec_float :=
  SFdiv 53 1024 (integerFloat (Qnum q)) (S754_finite false (Qden q) 0).

(** The value of a double, as a fraction in lowest terms. *)
Definition fromFloat (x : spec_float) : number :=
  match x with
  | S754_zero _ => Finite 0
  | S754_infinity false => PlusInfinity
  | S754_infinity true => MinusInfinity
  | S754_nan => NotANumber
  | S754_finite s m e =>
      let n := if s then Zneg m else Zpos m in
      match e with
      | Zneg k => Finite (Qred (n # Pos.shiftl 1 (Npos k)))
      | _ => Finite (inject_Z (Z.shiftl n e))
      end
  end.

(** [(lowerLight + upperLight) / 2] in binary64 arithmetic. *)
Definition midpointDouble (lowerLight upperLight : Q) : number :=
  fromFloat
    (SFdiv 53 1024
       (SFadd 53 1024 (toFloat lowerLight) (toFloat upperLight))
       (toFloat 2)).

(** The filter of the segment loop at a midpoint that may be infinite. *)
Definition camerasForLightLevelAt (midpointLight : number) (relevant : list HC.t)
    : list HC.t :=
  filter
    (fun camera =>
       number_leb (Finite (HC.minLightLevel camera)) midpointLight
       && number_leb midpointLight (Finite (HC.maxLightLevel camera)))
    relevant.

(** The segment loop and [canCoverRequirements] with the computation of the
    midpoint [mid] left open; everything else is as in [checkSegments] and
    [canCoverRequirements] above, which take the midpoint exactly. *)
Fixpoint checkSegmentsWith (mid : Q -> Q -> number) (requirements : Req.t)
    (relevant : list HC.t) (sorted : list Q) : bool :=
  match sorted with
  | lowerLight :: ((upperLight :: _) as rest) =>
      if negb (canCoverDistanceRange
                 (Req.minDistance requirements)
                 (Req.maxDistance requirements)
                 (camerasForLightLevelAt (mid lowerLight upperLight) relevant))
      then false
      else checkSegmentsWith mid requirements relevant rest
  | _ => true
  end.

Definition canCoverRequirementsWith (mid : Q -> Q -> number)
    (requirements : Req.t) (hardwareCameras : list HC.t) : bool :=
  let relevant := relevantCameras requirements hardwareCameras in
  if Nat.eqb (List.length relevant) 0 then false
  else checkSegmentsWith mid requirements relevant
         (sortedLightBoundaries requirements relevant).

(** [canCoverRequirements] as the source runs it, on doubles. *)
Definition canCoverRequirementsDouble (requirements : Req.t)
    (hardwareCameras : list HC.t) : bool :=
  canCoverRequirementsWith midpointDouble requirements hardwareCameras.




(** ** Inputs on which rounding and overflow show *)

(** The distance between 1 and the next double, [2^-52]. *)
Definition ulp1 : Q := 1 # 4503599627370496.



(** [2^1023]; the largest double is just below [2^1024]. *)
Definition huge : Q := inject_Z (2 ^ 1023).



(** ** Running the examples *)

Example basic_example : canCoverRequirements basicRequirements basicCameras = true.
Proof. vm_compute. reflexivity. Qed.

Example gap_example : canCoverRequirements basicRequirements gapCameras = false.
Proof. vm_compute. reflexivity. Qed.

Example no_cameras_example : canCoverRequirements basicRequirements [] = false.
Proof. vm_compute. reflexivity. Qed.

(** ** Comparisons *)

Lemma leb_le a b : leb a b = true <-> a <= b.
Proof. unfold leb. apply Qle_bool_iff. Qed.

Lemma leb_gt a b : leb a b = false <-> b < a.
Proof.
  unfold leb. split; intros H.
  - apply Qnot_le_lt. intros Hle. apply Qle_bool_iff in Hle. congruence.
  - destruct (Qle_bool a b) eqn:E; [|reflexivity].
    apply Qle_bool_iff in E. lra.
Qed.

Lemma ltb_lt a b : ltb a b = true <-> a < b.
Proof. unfold ltb. rewrite negb_true_iff. apply leb_gt. Qed.

Lemma ltb_ge a b : ltb a b = false <-> b <= a.
Proof. unfold ltb. rewrite negb_false_iff. apply leb_le. Qed.

(** Turns every boolean comparison met in the goal or in a hypothesis into
    the order fact it decides. *)
Ltac cmp :=
  repeat match goal with
  | H : leb _ _ = true |- _ => apply leb_le in H
  | H : leb _ _ = false |- _ => apply leb_gt in H
  | H : ltb _ _ = true |- _ => apply ltb_lt in H
  | H : ltb _ _ = false |- _ => apply ltb_ge in H
  | |- context [leb ?a ?b] => destruct (leb a b) eqn:?
  | |- context [ltb ?a ?b] => destruct (ltb a b) eqn:?
  | H : context [leb ?a ?b] |- _ => destruct (leb a b) eqn:?
  | H : context [ltb ?a ?b] |- _ => destruct (ltb a b) eqn:?
  end.

(** [lra] extended to the halving done by [midpoint]. *)
Ltac qlra :=
  unfold midpoint, Qdiv in *; change (/ 2) with (1 # 2) in *; lra.

(** ** The stable sort *)

Section SortFacts.
Context {A : Type} (key : A -> Q).

Lemma insert_In x y l : In x (insert key y l) <-> x = y \/ In x l.
Proof.
  induction l as [|z l IH]; simpl.
  - intuition.
  - destruct (leb (key y) (key z)); simpl; [intuition|].
    rewrite IH. intuition.
Qed.

Lemma sort_In x l : In x (sort key l) <-> In x l.
Proof.
  induction l as [|y l IH]; simpl; [tauto|].
  rewrite insert_In, IH. intuition.
Qed.

Lemma insert_Permutation x l : Permutation (x :: l) (insert key x l).
Proof.
  induction l as [|y l IH]; simpl; [reflexivity|].
  destruct (leb (key x) (key y)); [reflexivity|].
  rewrite perm_swap. now constructor.
Qed.

Lemma sort_Permutation l : Permutation l (sort key l).
Proof.
  induction l as [|x l IH]; simpl; [constructor|].
  rewrite <- insert_Permutation. now constructor.
Qed.

Lemma insert_sorted x l :
  StronglySorted (keyLe key) l -> StronglySorted (keyLe key) (insert key x l).
Proof.
  induction 1 as [|y l Hs IH Hall]; simpl.
  - repeat constructor.
  - destruct (leb (key x) (key y)) eqn:E; cmp.
    + constructor; [now constructor|].
      constructor; [exact E|].
      eapply Forall_impl; [|exact Hall].
      unfold keyLe. intros; lra.
    + constructor; [exact IH|].
      apply Forall_forall. intros z Hz. apply insert_In in Hz.
      destruct Hz as [->|Hz].
      * unfold keyLe. lra.
      * rewrite Forall_forall in Hall. now apply Hall.
Qed.

Lemma sort_sorted l : StronglySorted (keyLe key) (sort key l).
Proof.
  induction l; simpl; [constructor|now apply insert_sorted].
Qed.
End SortFacts.

(** ** The sweep along the distance axis *)

Lemma extend_ge t c : t <= extend t c /\ HC.maxDistance c <= extend t c.
Proof. unfold extend. cmp; lra. Qed.

Lemma extend_mono t t' c c' :
  t <= t' -> HC.maxDistance c <= HC.maxDistance c' ->
  extend t c <= extend t' c'.
Proof. unfold extend. intros. cmp; lra. Qed.

Lemma extend_absorbed t c : HC.maxDistance c <= t -> extend t c = t.
Proof. unfold extend. intros. cmp; [lra|reflexivity]. Qed.

Lemma dominated_refl cams : dominated cams cams.
Proof. intros c Hc. exists c. unfold widerDistance. split; [exact Hc|lra]. Qed.

Lemma dominated_incl cams cams' : incl cams cams' -> dominated cams cams'.
Proof.
  intros Hi c Hc. exists c. unfold widerDistance.
  split; [now apply Hi|lra].
Qed.

(** Reaching [hi] survives a larger start and wider cameras. *)
Lemma reach_mono cams hi t :
  reach cams hi t ->
  forall cams' hi' t', dominated cams cams' -> hi' <= hi -> t <= t' ->
    reach cams' hi' t'.
Proof.
  induction 1 as [c t Hin Hmin Hhi | c t Hin Hmin _ IH];
    intros cams' hi' t' Hdom Hh Ht;
    destruct (Hdom c Hin) as (c' & Hin' & Hlo & Hup).
  - apply reach_done with c'; [exact Hin'|lra|].
    pose proof (extend_mono t t' c c' Ht Hup). lra.
  - apply reach_step with c'; [exact Hin'|lra|].
    apply IH; [exact Hdom|exact Hh|].
    now apply extend_mono.
Qed.

Lemma sweep_reach hi l : forall cov, sweep hi cov l = true -> reach l hi cov.
Proof.
  induction l as [|c l IH]; intros cov H; simpl in H; [discriminate|].
  fold (extend cov c) in H.
  destruct (ltb cov (HC.minDistance c)) eqn:Egap; [discriminate|].
  apply ltb_ge in Egap.
  destruct (leb hi (extend cov c)) eqn:Edone.
  - apply leb_le in Edone.
    apply reach_done with c; [now left|exact Egap|exact Edone].
  - apply reach_step with c; [now left|exact Egap|].
    apply reach_mono with (cams := l) (hi := hi) (t := extend cov c).
    + now apply IH.
    + apply dominated_incl. intros x Hx. now right.
    + lra.
    + lra.
Qed.

(** A camera whose far end is already covered adds nothing. *)
Lemma reach_strip c l hi t :
  reach (c :: l) hi t -> HC.maxDistance c <= t -> reach l hi t \/ hi <= t.
Proof.
  induction 1 as [c0 t Hin Hmin Hhi | c0 t Hin Hmin Hr IH]; intros Hc.
  - destruct Hin as [->|Hin].
    + right. now rewrite extend_absorbed in Hhi.
    + left. now apply reach_done with c0.
  - destruct Hin as [->|Hin].
    + rewrite extend_absorbed in IH by exact Hc. now apply IH.
    + destruct IH as [IH|IH].
      * pose proof (extend_ge t c0). lra.
      * left. now apply reach_step with c0.
      * left. now apply reach_done with c0.
Qed.

Lemma sweep_false_no_reach hi l :
  StronglySorted (keyLe HC.minDistance) l ->
  forall cov, sweep hi cov l = false -> ~ reach l hi cov.
Proof.
  induction 1 as [|c l Hs IH Hall]; intros cov H Hr.
  - inversion Hr as [c0 t Hin|c0 t Hin]; subst; contradiction.
  - simpl in H. fold (extend cov c) in H.
    rewrite Forall_forall in Hall.
    destruct (ltb cov (HC.minDistance c)) eqn:Egap.
    + apply ltb_lt in Egap.
      assert (Hfar : forall c0, In c0 (c :: l) -> cov < HC.minDistance c0).
      { intros c0 [->|Hin]; [exact Egap|].
        specialize (Hall c0 Hin). unfold keyLe in Hall. lra. }
      inversion Hr as [c0 t Hin Hmin|c0 t Hin Hmin]; subst;
        specialize (Hfar c0 Hin); lra.
    + destruct (leb hi (extend cov c)) eqn:Edone; [discriminate|].
      apply leb_gt in Edone.
      assert (Hr' : reach (c :: l) hi (extend cov c)).
      { apply reach_mono with (cams := c :: l) (hi := hi) (t := cov);
          [exact Hr|apply dominated_refl|lra|apply extend_ge]. }
      apply reach_strip in Hr'; [|apply extend_ge].
      destruct Hr' as [Hr'|Hr']; [|lra].
      now apply (IH (extend cov c)).
Qed.

Lemma reach_ext cams cams' hi t :
  (forall c, In c cams -> In c cams') -> reach cams hi t -> reach cams' hi t.
Proof.
  intros Hi Hr.
  apply reach_mono with (cams := cams) (hi := hi) (t := t);
    [exact Hr|now apply dominated_incl|lra|lra].
Qed.

(** The result of [canCoverDistanceRange] in terms of the cameras alone,
    for every input. *)
Lemma canCoverDistanceRange_reach lo hi cams :
  canCoverDistanceRange lo hi cams = true <-> reach cams hi lo.
Proof.
  unfold canCoverDistanceRange. split.
  - intros H. apply sweep_reach in H.
    eapply reach_ext; [|exact H]. intros c. apply sort_In.
  - intros H.
    destruct (sweep hi lo (sort HC.minDistance cams)) eqn:E; [reflexivity|].
    exfalso. apply sweep_false_no_reach in E; [|apply sort_sorted].
    apply E. eapply reach_ext; [|exact H]. intros c. apply sort_In.
Qed.

(** ** What [canCoverDistanceRange] depends on *)

Lemma canCoverDistanceRange_dominated lo hi cams cams' :
  dominated cams cams' ->
  canCoverDistanceRange lo hi cams = true ->
  canCoverDistanceRange lo hi cams' = true.
Proof.
  rewrite !canCoverDistanceRange_reach. intros Hd Hr.
  apply reach_mono with (cams := cams) (hi := hi) (t := lo);
    [exact Hr|exact Hd|lra|lra].
Qed.

Lemma canCoverDistanceRange_same_members lo hi cams cams' :
  (forall c, In c cams <-> In c cams') ->
  canCoverDistanceRange lo hi cams = canCoverDistanceRange lo hi cams'.
Proof.
  intros H. apply eq_true_iff_eq.
  split; apply canCoverDistanceRange_dominated; apply dominated_incl;
    intros c Hc; now apply H.
Qed.

Lemma canCoverDistanceRange_Permutation lo hi cams cams' :
  Permutation cams cams' ->
  canCoverDistanceRange lo hi cams = canCoverDistanceRange lo hi cams'.
Proof.
  intros Hp. apply canCoverDistanceRange_same_members. intros c. split.
  - now apply Permutation_in.
  - apply Permutation_in. now symmetry.
Qed.

(** Numerically equal targets give the same answer. *)
Lemma canCoverDistanceRange_Qeq lo hi lo' hi' cams :
  lo == lo' -> hi == hi' ->
  canCoverDistanceRange lo hi cams = canCoverDistanceRange lo' hi' cams.
Proof.
  intros Hl Hh. apply eq_true_iff_eq.
  rewrite !canCoverDistanceRange_reach.
  split; intros Hr;
    (eapply reach_mono; [exact Hr|apply dominated_refl|lra|lra]).
Qed.

(** ** Reaching and covering *)

Lemma reach_covers cams hi t :
  reach cams hi t -> t < hi ->
  forall d, t <= d <= hi -> exists c, In c cams /\ inDistance c d.
Proof.
  assert (Hfar : forall c t0 u, HC.minDistance c <= t0 -> t0 < u ->
            u <= extend t0 c -> forall d, t0 <= d <= u -> inDistance c d).
  { intros c t0 u Hmin Hlt Hu d Hd. unfold inDistance.
    unfold extend in Hu. cmp; lra. }
  induction 1 as [c t Hin Hmin Hhi | c t Hin Hmin Hr IH]; intros Hlt d Hd.
  - exists c. split; [exact Hin|]. eapply Hfar; eauto.
  - destruct (Qlt_le_dec d (extend t c)) as [Hd'|Hd'].
    + exists c. split; [exact Hin|].
      apply (Hfar c t (extend t c)); [exact Hmin| | |]; lra.
    + destruct (Qlt_le_dec (extend t c) hi) as [Hh|Hh].
      * apply IH; [exact Hh|lra].
      * exists c. split; [exact Hin|]. eapply Hfar; eauto.
Qed.

(** When the sweep gives up below [hi], some distance above the coverage
    reached is in no camera's interval. *)
Lemma sweep_false_gap hi l :
  StronglySorted (keyLe HC.minDistance) l ->
  forall cov, cov < hi -> sweep hi cov l = false ->
  exists d, cov < d <= hi /\ forall c, In c l -> ~ inDistance c d.
Proof.
  induction 1 as [|c l Hs IH Hall]; intros cov Hlt H.
  - exists hi. split; [lra|]. intros c [].
  - simpl in H. fold (extend cov c) in H.
    rewrite Forall_forall in Hall.
    destruct (ltb cov (HC.minDistance c)) eqn:Egap.
    + apply ltb_lt in Egap.
      assert (Hd : exists d, cov < d <= hi /\ d < HC.minDistance c).
      { destruct (Qlt_le_dec hi (HC.minDistance c)).
        - exists hi. lra.
        - exists (midpoint cov (HC.minDistance c)). qlra. }
      destruct Hd as (d & Hd1 & Hd2). exists d. split; [exact Hd1|].
      unfold inDistance. intros c0 [->|Hin]; [lra|].
      specialize (Hall c0 Hin). unfold keyLe in Hall. lra.
    + destruct (leb hi (extend cov c)) eqn:Edone; [discriminate|].
      apply leb_gt in Edone.
      destruct (IH (extend cov c) Edone H) as (d & Hd1 & Hd2).
      pose proof (extend_ge cov c) as [Hge1 Hge2].
      exists d. split; [lra|].
      intros c0 [->|Hin]; [unfold inDistance; lra|now apply Hd2].
Qed.

(** Covering implies acceptance, for every target with [lo <= hi]. *)
Lemma coversDistance_accepted lo hi cams :
  lo <= hi -> coversDistance lo hi cams ->
  canCoverDistanceRange lo hi cams = true.
Proof.
  intros Hle Hcov.
  destruct (Qlt_le_dec lo hi) as [Hlt|Hge].
  - unfold canCoverDistanceRange.
    destruct (sweep hi lo (sort HC.minDistance cams)) eqn:E; [reflexivity|].
    apply sweep_false_gap in E; [|apply sort_sorted|exact Hlt].
    destruct E as (d & Hd & Hno).
    destruct (Hcov d) as (c & Hin & Hc); [lra|].
    exfalso. apply (Hno c); [now apply sort_In|exact Hc].
  - apply canCoverDistanceRange_reach.
    destruct (Hcov lo) as (c & Hin & Hc1 & Hc2); [lra|].
    apply reach_done with c; [exact Hin|exact Hc1|].
    pose proof (extend_ge lo c). lra.
Qed.


(** ** The set of light boundaries *)

Lemma set_has_memQ s x : set_has s x = true <-> memQ s x.
Proof.
  unfold set_has, memQ. rewrite existsb_exists.
  split; intros (b & Hin & Hb); exists b; (split; [exact Hin|]).
  - apply Qeq_bool_iff in Hb. lra.
  - apply Qeq_bool_iff. lra.
Qed.

Lemma set_add_In s y b : In b (set_add s y) -> In b s \/ b = y.
Proof.
  unfold set_add. destruct (set_has s y); [now left|].
  rewrite in_app_iff. simpl. intuition.
Qed.

Lemma set_add_keeps s y x : memQ s x -> memQ (set_add s y) x.
Proof.
  unfold set_add. destruct (set_has s y); [trivial|].
  intros (b & Hin & Hb). exists b. split; [|exact Hb].
  apply in_or_app. now left.
Qed.

Lemma set_add_adds s y : memQ (set_add s y) y.
Proof.
  unfold set_add. destruct (set_has s y) eqn:E.
  - now apply set_has_memQ.
  - exists y. split; [|reflexivity]. apply in_or_app. right. now left.
Qed.

Section Boundaries.
Variable requirements : Req.t.
Let rlo := Req.minLightLevel requirements.
Let rhi := Req.maxLightLevel requirements.

Lemma addCameraBoundaries_In s c b :
  In b (addCameraBoundaries requirements s c) ->
  In b s \/ rlo < b < rhi.
Proof.
  unfold addCameraBoundaries. fold rlo rhi. intros H.
  destruct (ltb rlo (HC.minLightLevel c) && ltb (HC.minLightLevel c) rhi) eqn:E1;
  destruct (ltb rlo (HC.maxLightLevel c) && ltb (HC.maxLightLevel c) rhi) eqn:E2;
  try apply andb_true_iff in E1 as [? ?]; try apply andb_true_iff in E2 as [? ?];
  repeat (apply set_add_In in H as [H| ->]); cmp; auto.
Qed.

Lemma addCameraBoundaries_keeps s c x :
  memQ s x -> memQ (addCameraBoundaries requirements s c) x.
Proof.
  unfold addCameraBoundaries. intros H.
  repeat match goal with
  | |- context [if ?b then _ else _] => destruct b
  end; repeat apply set_add_keeps; exact H.
Qed.

Lemma addCameraBoundaries_min s c :
  rlo < HC.minLightLevel c < rhi ->
  memQ (addCameraBoundaries requirements s c) (HC.minLightLevel c).
Proof.
  unfold addCameraBoundaries. fold rlo rhi. intros [H1 H2].
  apply ltb_lt in H1, H2. rewrite H1, H2. simpl.
  destruct (_ && _); [apply set_add_keeps|]; apply set_add_adds.
Qed.

Lemma addCameraBoundaries_max s c :
  rlo < HC.maxLightLevel c < rhi ->
  memQ (addCameraBoundaries requirements s c) (HC.maxLightLevel c).
Proof.
  unfold addCameraBoundaries. fold rlo rhi. intros [H1 H2].
  apply ltb_lt in H1, H2. rewrite H1, H2. simpl. apply set_add_adds.
Qed.

Lemma fold_boundaries_In rel : forall s b,
  In b (fold_left (addCameraBoundaries requirements) rel s) ->
  In b s \/ rlo < b < rhi.
Proof.
  induction rel as [|c rel IH]; intros s b H; simpl in H; [now left|].
  apply IH in H as [H|H]; [|now right].
  now apply addCameraBoundaries_In in H.
Qed.

Lemma fold_boundaries_keeps rel : forall s x,
  memQ s x -> memQ (fold_left (addCameraBoundaries requirements) rel s) x.
Proof.
  induction rel as [|c rel IH]; intros s x H; simpl; [exact H|].
  apply IH. now apply addCameraBoundaries_keeps.
Qed.

Lemma fold_boundaries_ends rel c : In c rel -> forall s,
  (rlo < HC.minLightLevel c < rhi ->
   memQ (fold_left (addCameraBoundaries requirements) rel s)
        (HC.minLightLevel c)) /\
  (rlo < HC.maxLightLevel c < rhi ->
   memQ (fold_left (addCameraBoundaries requirements) rel s)
        (HC.maxLightLevel c)).
Proof.
  induction rel as [|c0 rel IH]; intros Hin s; [contradiction|].
  simpl. destruct Hin as [->|Hin]; [|now apply IH].
  split; intros H; apply fold_boundaries_keeps.
  - now apply addCameraBoundaries_min.
  - now apply addCameraBoundaries_max.
Qed.

(** Every boundary is an end of the required light interval or lies
    strictly inside it. *)
Lemma lightBoundaries_In rel b :
  In b (lightBoundaries requirements rel) ->
  b = rlo \/ b = rhi \/ rlo < b < rhi.
Proof.
  unfold lightBoundaries. fold rlo rhi. intros H.
  apply fold_boundaries_In in H as [H|H]; [|auto].
  apply set_add_In in H as [H| ->]; [|auto].
  apply set_add_In in H as [[]| ->]. auto.
Qed.

Lemma lightBoundaries_lo rel : memQ (lightBoundaries requirements rel) rlo.
Proof.
  apply fold_boundaries_keeps, set_add_keeps, set_add_adds.
Qed.

Lemma lightBoundaries_hi rel : memQ (lightBoundaries requirements rel) rhi.
Proof. apply fold_boundaries_keeps, set_add_adds. Qed.

(** A light level that is an end of a relevant camera's light interval
    and lies strictly inside the required interval is a boundary. *)
Lemma lightBoundaries_end rel c e :
  In c rel -> e = HC.minLightLevel c \/ e = HC.maxLightLevel c ->
  rlo < e < rhi -> memQ (lightBoundaries requirements rel) e.
Proof.
  intros Hin [-> | ->] H;
    now apply (fold_boundaries_ends rel c Hin).
Qed.

(** Without an interior the cameras contribute no boundary. *)
Lemma lightBoundaries_no_interior rel :
  rhi <= rlo ->
  lightBoundaries requirements rel = set_add (set_add [] rlo) rhi.
Proof.
  intros Hle. unfold lightBoundaries. fold rlo rhi.
  generalize (set_add (set_add [] rlo) rhi) as s.
  induction rel as [|c rel IH]; intros s; simpl; [reflexivity|].
  rewrite <- (IH s) at 2. f_equal.
  unfold addCameraBoundaries. fold rlo rhi.
  assert (E : forall e, ltb rlo e && ltb e rhi = false).
  { intros e. apply andb_false_iff.
    destruct (Qlt_le_dec rlo e).
    - right. apply ltb_ge. lra.
    - left. now apply ltb_ge. }
  now rewrite !E.
Qed.
End Boundaries.

(** ** Adjacent boundaries *)

Lemma adjacent_In l a b : adjacent l a b -> In a l /\ In b l.
Proof.
  induction 1 as [a b l|y l a b _ [IHa IHb]]; simpl; auto.
Qed.

Lemma adjacent_sorted l a b :
  StronglySorted Qle l -> adjacent l a b ->
  a <= b /\ forall y, In y l -> y <= a \/ b <= y.
Proof.
  intros Hs Hadj. induction Hadj as [a b l|y0 l a b Hadj IH].
  - inversion Hs as [|? ? Hs' Ha]; subst.
    inversion Hs' as [|? ? _ Hb]; subst.
    rewrite Forall_forall in Ha, Hb.
    split; [apply Ha; now left|].
    intros y [<-|[<-|Hy]]; [left; lra|right; lra|right; now apply Hb].
  - inversion Hs as [|? ? Hs' Hy0]; subst.
    rewrite Forall_forall in Hy0.
    destruct (IH Hs') as [Hab Hout]. split; [exact Hab|].
    intros y [<-|Hy]; [|now apply Hout].
    left. apply Hy0. now apply (adjacent_In l a b).
Qed.

(** A level between the first boundary and a later one lies between two
    adjacent boundaries. *)
Lemma adjacent_around x : forall l a0,
  a0 <= x -> (exists b, In b l /\ x <= b) ->
  exists a b, adjacent (a0 :: l) a b /\ a <= x <= b.
Proof.
  induction l as [|b1 l IH]; intros a0 Ha (b & Hin & Hb); [contradiction|].
  destruct (Qlt_le_dec b1 x) as [Hlt|Hle].
  - destruct (IH b1) as (a' & b' & Hadj & Hx); [lra| |].
    + destruct Hin as [->|Hin]; [lra|]. now exists b.
    + exists a', b'. split; [now constructor|exact Hx].
  - exists a0, b1. split; [constructor|lra].
Qed.

Lemma checkSegments_adjacent requirements rel l :
  checkSegments requirements rel l = true <->
  forall a b, adjacent l a b ->
    canCoverDistanceRange (Req.minDistance requirements)
      (Req.maxDistance requirements)
      (camerasForLightLevel (midpoint a b) rel) = true.
Proof.
  induction l as [|a0 l IH].
  - simpl. split; [|reflexivity]. intros _ a b H. inversion H.
  - destruct l as [|b0 l].
    + simpl. split; [|reflexivity]. intros _ a b H.
      inversion H as [|? ? ? ? H']; subst. inversion H'.
    + change (checkSegments requirements rel (a0 :: b0 :: l)) with
        (if negb (canCoverDistanceRange (Req.minDistance requirements)
                    (Req.maxDistance requirements)
                    (camerasForLightLevel (midpoint a0 b0) rel))
         then false else checkSegments requirements rel (b0 :: l)).
      destruct (canCoverDistanceRange _ _ (camerasForLightLevel (midpoint a0 b0) rel))
        eqn:E; simpl negb; cbv iota.
      * rewrite IH. split.
        -- intros H a b Hadj.
           inversion Hadj; subst; [exact E|now apply H].
        -- intros H a b Hadj. apply H. now constructor.
      * split; [discriminate|]. intros H.
        rewrite (H a0 b0 (adjacent_here a0 b0 l)) in E. discriminate.
Qed.

Lemma sortedLightBoundaries_sorted requirements rel :
  StronglySorted Qle (sortedLightBoundaries requirements rel).
Proof. apply (sort_sorted (fun x : Q => x)). Qed.

Lemma sortedLightBoundaries_In requirements rel b :
  In b (sortedLightBoundaries requirements rel) <->
  In b (lightBoundaries requirements rel).
Proof. apply sort_In. Qed.

Lemma sortedLightBoundaries_range requirements rel b :
  Req.minLightLevel requirements <= Req.maxLightLevel requirements ->
  In b (sortedLightBoundaries requirements rel) ->
  Req.minLightLevel requirements <= b <= Req.maxLightLevel requirements.
Proof.
  intros Hle Hb. apply sortedLightBoundaries_In, lightBoundaries_In in Hb.
  destruct Hb as [->|[->|Hb]]; lra.
Qed.

(** No end of a camera's light interval lies strictly between two adjacent
    boundaries. *)
Lemma end_outside_segment requirements rel c e a b :
  Req.minLightLevel requirements <= Req.maxLightLevel requirements ->
  In c rel -> e = HC.minLightLevel c \/ e = HC.maxLightLevel c ->
  adjacent (sortedLightBoundaries requirements rel) a b ->
  e <= a \/ b <= e.
Proof.
  intros Hle Hc He Hadj.
  destruct (adjacent_In _ _ _ Hadj) as [Ha Hb].
  apply (sortedLightBoundaries_range _ _ _ Hle) in Ha, Hb.
  destruct (Qlt_le_dec (Req.minLightLevel requirements) e) as [H1|H1];
    [|left; lra].
  destruct (Qlt_le_dec e (Req.maxLightLevel requirements)) as [H2|H2];
    [|right; lra].
  destruct (lightBoundaries_end requirements rel c e Hc He (conj H1 H2))
    as (y & Hy & Hye).
  apply sortedLightBoundaries_In in Hy.
  destruct (adjacent_sorted _ _ _
              (sortedLightBoundaries_sorted requirements rel) Hadj) as [_ Hout].
  destruct (Hout y Hy); [left|right]; lra.
Qed.

(** ** What [canCoverRequirements] checks *)

Lemma camerasForLightLevel_In x rel c :
  In c (camerasForLightLevel x rel) <-> In c rel /\ inLight c x.
Proof.
  unfold camerasForLightLevel, inLight. rewrite filter_In, andb_true_iff.
  now rewrite !leb_le.
Qed.

Lemma relevantCameras_In requirements cams c :
  In c (relevantCameras requirements cams) <->
  In c cams /\
  ~ (HC.maxLightLevel c < Req.minLightLevel requirements \/
     Req.maxLightLevel requirements < HC.minLightLevel c).
Proof.
  unfold relevantCameras. rewrite filter_In, negb_true_iff, orb_false_iff.
  rewrite !ltb_ge. intuition lra.
Qed.

Lemma sortedLightBoundaries_point requirements rel :
  Req.minLightLevel requirements == Req.maxLightLevel requirements ->
  sortedLightBoundaries requirements rel = [Req.minLightLevel requirements].
Proof.
  intros Heq. unfold sortedLightBoundaries.
  rewrite lightBoundaries_no_interior by lra.
  unfold set_add, set_has. simpl.
  assert (E : Qeq_bool (Req.maxLightLevel requirements)
                (Req.minLightLevel requirements) = true)
    by (apply Qeq_bool_iff; lra).
  now rewrite E.
Qed.

Lemma sortedLightBoundaries_inverted requirements rel :
  Req.maxLightLevel requirements < Req.minLightLevel requirements ->
  sortedLightBoundaries requirements rel =
  [Req.maxLightLevel requirements; Req.minLightLevel requirements].
Proof.
  intros Hlt. unfold sortedLightBoundaries.
  rewrite lightBoundaries_no_interior by lra.
  unfold set_add, set_has. simpl.
  destruct (Qeq_bool (Req.maxLightLevel requirements)
              (Req.minLightLevel requirements)) eqn:E.
  - apply Qeq_bool_iff in E. lra.
  - simpl. destruct (leb _ _) eqn:E'; [apply leb_le in E'; lra|reflexivity].
Qed.

(** With exact midpoints, passing every segment is the same as accepting at
    every sampled level. *)
Lemma segments_sample requirements rel :
  (forall a b, adjacent (sortedLightBoundaries requirements rel) a b ->
     canCoverDistanceRange (Req.minDistance requirements)
       (Req.maxDistance requirements)
       (camerasForLightLevel (midpoint a b) rel) = true) <->
  (forall x, sample requirements x ->
     canCoverDistanceRange (Req.minDistance requirements)
       (Req.maxDistance requirements) (camerasForLightLevel x rel) = true).
Proof.
  destruct (Q_dec (Req.minLightLevel requirements)
              (Req.maxLightLevel requirements)) as [[Hlt|Hgt]|Heq].
  - (* the required light interval has an interior *)
    assert (Hle : Req.minLightLevel requirements <= Req.maxLightLevel requirements)
      by lra.
    split.
    + intros H x [[_ Hx]|[Hbad _]]; [|lra].
      pose proof (sortedLightBoundaries_sorted requirements rel) as Hs.
      destruct (lightBoundaries_lo requirements rel) as (b0 & Hb0 & Eb0).
      destruct (lightBoundaries_hi requirements rel) as (b1 & Hb1 & Eb1).
      apply sortedLightBoundaries_In in Hb0, Hb1.
      destruct (sortedLightBoundaries requirements rel) as [|h tl] eqn:Ebs;
        [contradiction|].
      assert (Hh : h <= b0).
      { inversion Hs as [|? ? _ Hall]; subst. rewrite Forall_forall in Hall.
        destruct Hb0 as [->|Hb0]; [lra|now apply Hall]. }
      assert (Hb1' : In b1 tl) by (destruct Hb1 as [->|Hb1]; [lra|exact Hb1]).
      destruct (adjacent_around x tl h) as (a & b & Hadj & Hab); [lra| |].
      { exists b1. split; [exact Hb1'|lra]. }
      apply canCoverDistanceRange_dominated
        with (cams := camerasForLightLevel (midpoint a b) rel); [|now apply H].
      rewrite <- Ebs in Hadj.
      apply dominated_incl. intros c Hc.
      apply camerasForLightLevel_In in Hc as [Hc [Hc1 Hc2]].
      apply camerasForLightLevel_In. split; [exact Hc|].
      pose proof (end_outside_segment requirements rel c _ a b Hle Hc
                    (or_introl eq_refl) Hadj) as Hmin.
      pose proof (end_outside_segment requirements rel c _ a b Hle Hc
                    (or_intror eq_refl) Hadj) as Hmax.
      unfold inLight. destruct Hmin, Hmax; qlra.
    + intros H a b Hadj. apply H. left. split; [exact Hlt|].
      destruct (adjacent_In _ _ _ Hadj) as [Ha Hb].
      apply (sortedLightBoundaries_range _ _ _ Hle) in Ha, Hb. qlra.
  - (* the ends are in the wrong order: one segment *)
    rewrite sortedLightBoundaries_inverted by exact Hgt. split.
    + intros H x [[Hbad _]|[_ ->]]; [lra|]. apply H. constructor.
    + intros H a b Hadj. apply H. right. split; [exact Hgt|].
      inversion Hadj as [|? ? ? ? Hadj']; subst; [reflexivity|].
      inversion Hadj' as [|? ? ? ? Hadj'']; subst. inversion Hadj''.
  - (* a single light level: no segment *)
    rewrite sortedLightBoundaries_point by exact Heq. split.
    + intros _ x [[Hbad _]|[Hbad _]]; lra.
    + intros _ a b Hadj.
      inversion Hadj as [|? ? ? ? Hadj']; subst. inversion Hadj'.
Qed.

(** The result of [canCoverRequirements] with exact midpoints, for every
    input. *)
Lemma canCoverRequirements_sample requirements cams :
  canCoverRequirements requirements cams = true <->
  relevantCameras requirements cams <> [] /\
  forall x, sample requirements x ->
    canCoverDistanceRange (Req.minDistance requirements)
      (Req.maxDistance requirements)
      (camerasForLightLevel x (relevantCameras requirements cams)) = true.
Proof.
  unfold canCoverRequirements. cbv zeta.
  rewrite <- segments_sample, <- checkSegments_adjacent.
  destruct (relevantCameras requirements cams) as [|c rel]; simpl Nat.eqb; cbv iota.
  - split; [discriminate|]. intros [H _]. now contradiction H.
  - split; [intros H; split; [discriminate|exact H]|now intros [_ H]].
Qed.

(** ** Monotonicity *)

Lemma wider_relevant requirements c c' :
  wider c c' ->
  ~ (HC.maxLightLevel c < Req.minLightLevel requirements \/
     Req.maxLightLevel requirements < HC.minLightLevel c) ->
  ~ (HC.maxLightLevel c' < Req.minLightLevel requirements \/
     Req.maxLightLevel requirements < HC.minLightLevel c').
Proof. unfold wider. intros (_ & H1 & H2) Hn [H|H]; apply Hn; lra. Qed.

Lemma lifted_active requirements x cams cams' :
  lifted cams cams' ->
  dominated (camerasForLightLevel x (relevantCameras requirements cams))
            (camerasForLightLevel x (relevantCameras requirements cams')).
Proof.
  intros Hl c Hc.
  apply camerasForLightLevel_In in Hc as [Hc Hx].
  apply relevantCameras_In in Hc as [Hc Hrel].
  destruct (Hl c Hc) as (c' & Hc' & Hw).
  exists c'. split; [|apply Hw].
  apply camerasForLightLevel_In. split.
  - apply relevantCameras_In. split; [exact Hc'|].
    now apply (wider_relevant requirements c c').
  - destruct Hw as (_ & H1 & H2). unfold inLight in *. lra.
Qed.

(** With exact midpoints, acceptance survives replacing cameras by wider
    ones and adding cameras. *)
Lemma canCoverRequirements_lifted requirements cams cams' :
  lifted cams cams' ->
  canCoverRequirements requirements cams = true ->
  canCoverRequirements requirements cams' = true.
Proof.
  intros Hl. rewrite !canCoverRequirements_sample. intros [Hne Hall]. split.
  - destruct (relevantCameras requirements cams) as [|c rel] eqn:E;
      [now contradiction Hne|].
    assert (Hc : In c (relevantCameras requirements cams))
      by (rewrite E; now left).
    apply relevantCameras_In in Hc as [Hc Hrel].
    destruct (Hl c Hc) as (c' & Hc' & Hw).
    assert (Hc'' : In c' (relevantCameras requirements cams')).
    { apply relevantCameras_In. split; [exact Hc'|].
      now apply (wider_relevant requirements c c'). }
    intros E'. rewrite E' in Hc''. contradiction.
  - intros x Hx.
    apply canCoverDistanceRange_dominated
      with (cams := camerasForLightLevel x (relevantCameras requirements cams)).
    + now apply lifted_active.
    + now apply Hall.
Qed.

Lemma wider_refl c : wider c c.
Proof. unfold wider, widerDistance. repeat split; lra. Qed.

Lemma lifted_incl cams cams' : incl cams cams' -> lifted cams cams'.
Proof.
  intros Hi c Hc. exists c. split; [now apply Hi|apply wider_refl].
Qed.

(** ** Exactness on rectangles with an interior *)




(** ** The run on doubles and the run with exact midpoints *)



Lemma checkSegmentsWith_agree mid requirements rel l :
  (forall a b, adjacent l a b ->
     camerasForLightLevelAt (mid a b) rel
     = camerasForLightLevel (midpoint a b) rel) ->
  checkSegmentsWith mid requirements rel l = checkSegments requirements rel l.
Proof.
  induction l as [|a [|b l] IH]; intros H; [reflexivity|reflexivity|].
  change (checkSegmentsWith mid requirements rel (a :: b :: l)) with
    (if negb (canCoverDistanceRange (Req.minDistance requirements)
                (Req.maxDistance requirements)
                (camerasForLightLevelAt (mid a b) rel))
     then false else checkSegmentsWith mid requirements rel (b :: l)).
  change (checkSegments requirements rel (a :: b :: l)) with
    (if negb (canCoverDistanceRange (Req.minDistance requirements)
                (Req.maxDistance requirements)
                (camerasForLightLevel (midpoint a b) rel))
     then false else checkSegments requirements rel (b :: l)).
  rewrite (H a b (adjacent_here a b l)), IH; [reflexivity|].
  intros a' b' Hadj. apply H. now constructor.
Qed.



(** The run with exact midpoints is the run with the midpoints
    [fun a b => Finite (midpoint a b)]. *)
Lemma canCoverRequirementsWith_midpoint requirements cams :
  canCoverRequirementsWith (fun a b => Finite (midpoint a b)) requirements cams
  = canCoverRequirements requirements cams.
Proof.
  unfold canCoverRequirementsWith, canCoverRequirements. cbv zeta.
  destruct (Nat.eqb _ 0); [reflexivity|].
  now apply checkSegmentsWith_agree.
Qed.

(** On the examples of the source the run on doubles gives the results of
    the run with exact midpoints. *)
Example examples_on_doubles :
  canCoverRequirementsDouble basicRequirements basicCameras = true /\
  canCoverRequirementsDouble basicRequirements gapCameras = false /\
  canCoverRequirementsDouble advancedRequirements advancedCameras = false /\
  canCoverRequirementsDouble basicRequirements [] = false.
Proof. vm_compute. auto. Qed.

(** The light levels of the inputs above are doubles: rounding them to
    binary64 changes nothing. *)
Example rounding_inputs_are_doubles :
  Forall (fun v => fromFloat (toFloat v) = Finite (Qred v))
    [1; 1 + ulp1; 1 + 2 * ulp1; 0; huge; (3 # 2) * huge; 10; 5; 6].
Proof. repeat constructor. Qed.

(** The sum [1 + (1 + 2^-52)] is a tie and rounds to 2, so the midpoint
    falls on the lower boundary; the sum [2^1023 + 1.5 * 2^1023] overflows. *)
Example midpointDouble_rounds_and_overflows :
  midpointDouble 1 (1 + ulp1) = Finite 1 /\
  midpointDouble huge ((3 # 2) * huge) = PlusInfinity.
Proof. vm_compute. auto. Qed.

(** ** The claims *)

(** C1 (as the code behaves at a failing input): for the well-formed
    requirement with distance interval [1,10] and the single light level 5,
    and the one camera working at distances [100,200] and light levels
    [0,10], [canCoverRequirements] returns [true] although the camera's
    region does not contain the required rectangle: the claimed equivalence
    between the result and coverage of the rectangle breaks on a degenerate
    light interval. *)
Theorem canCoverRequirements_accepts_uncovered_rectangle :
  wellFormedRequirements pointLightRequirements /\
  wellFormedCamera farCamera /\
  canCoverRequirements pointLightRequirements [farCamera] = true /\
  ~ coversRectangle pointLightRequirements [farCamera].
Proof.
  split; [|split; [|split]].
  - unfold wellFormedRequirements. simpl. lra.
  - unfold wellFormedCamera. simpl. lra.
  - vm_compute. reflexivity.
  - intros H. destruct (H 1 5) as (c & Hc & [Hd _] & _); simpl; try lra.
    destruct Hc as [<-|[]]. simpl in Hd. lra.
Qed.

(** C2 (as the code behaves at a failing input): for the degenerate target
    [5,5] and the single well-formed camera with distance interval [1,3],
    [canCoverDistanceRange] returns [true] although the union of the camera
    intervals does not contain the target: the claimed equivalence breaks
    on a target with [lo = hi]. *)
Theorem canCoverDistanceRange_accepts_uncovered_point :
  wellFormedCamera nearCamera /\
  canCoverDistanceRange 5 5 [nearCamera] = true /\
  ~ coversDistance 5 5 [nearCamera].
Proof.
  split; [|split].
  - unfold wellFormedCamera. simpl. lra.
  - vm_compute. reflexivity.
  - intros H. destruct (H 5) as (c & Hc & _ & Hd); [lra|].
    destruct Hc as [<-|[]]. simpl in Hd. lra.
Qed.

(** C3: when the required light interval is a single level and at least
    one camera survives the light pre-filter, the sorted boundary sequence
    is that single value, it has no pair of adjacent boundaries (no segment,
    so the loop body never runs and no distance coverage is checked), and
    [canCoverRequirements] returns [true]. *)
Theorem canCoverRequirements_degenerate_light requirements cams :
  Req.minLightLevel requirements == Req.maxLightLevel requirements ->
  (0 < List.length (relevantCameras requirements cams))%nat ->
  sortedLightBoundaries requirements (relevantCameras requirements cams)
    = [Req.minLightLevel requirements] /\
  (forall a b,
     ~ adjacent (sortedLightBoundaries requirements
                   (relevantCameras requirements cams)) a b) /\
  canCoverRequirements requirements cams = true.
Proof.
  intros Heq Hlen.
  pose proof (sortedLightBoundaries_point requirements
                (relevantCameras requirements cams) Heq) as E.
  split; [exact E|]. split.
  - rewrite E. intros a b Hadj.
    inversion Hadj as [|? ? ? ? Hadj']; subst. inversion Hadj'.
  - unfold canCoverRequirements. cbv zeta. rewrite E.
    destruct (relevantCameras requirements cams); [simpl in Hlen; lia|].
    reflexivity.
Qed.

Lemma canCoverRequirements_degenerate_light_witness :
  canCoverRequirements pointLightRequirements [farCamera] = true.
Proof.
  apply (canCoverRequirements_degenerate_light pointLightRequirements [farCamera]).
  - reflexivity.
  - simpl. lia.
Defined.




(** C5: [canCoverRequirements] and [canCoverDistanceRange] return the same
    result on every permutation of their camera list. *)
Theorem order_independence requirements lo hi cams cams' :
  Permutation cams cams' ->
  canCoverRequirements requirements cams
    = canCoverRequirements requirements cams' /\
  canCoverDistanceRange lo hi cams = canCoverDistanceRange lo hi cams'.
Proof.
  intros Hp. split.
  - apply eq_true_iff_eq.
    split; apply canCoverRequirements_lifted; apply lifted_incl; intros c Hc.
    + now apply (Permutation_in c Hp).
    + now apply (Permutation_in c (Permutation_sym Hp)).
  - now apply canCoverDistanceRange_Permutation.
Qed.

Lemma order_independence_witness :
  canCoverRequirements advancedRequirements advancedCameras
    = canCoverRequirements advancedRequirements (rev advancedCameras) /\
  canCoverDistanceRange 1 15 advancedCameras
    = canCoverDistanceRange 1 15 (rev advancedCameras).
Proof.
  apply (order_independence advancedRequirements 1 15
           advancedCameras (rev advancedCameras)).
  apply Permutation_rev.
Defined.

(** C6: with no camera, [canCoverDistanceRange] returns [false] for every
    target, a degenerate one included, and [canCoverRequirements] returns
    [false] for every requirement, in particular for every non-degenerate
    one. *)
Theorem empty_device_set :
  (forall lo hi, canCoverDistanceRange lo hi [] = false) /\
  (forall requirements, canCoverRequirements requirements [] = false).
Proof. split; reflexivity. Qed.

Lemma relevantCameras_idempotent requirements cams :
  relevantCameras requirements (relevantCameras requirements cams)
  = relevantCameras requirements cams.
Proof.
  unfold relevantCameras. induction cams as [|c cams IH]; [reflexivity|].
  simpl. destruct (negb _) eqn:E; [|exact IH].
  simpl. now rewrite E, IH.
Qed.

(** C7: [canCoverRequirements] works on the cameras of the input, in their
    order, except exactly those with [maxLightLevel] below the required
    minimum or [minLightLevel] above the required maximum: its result is the
    result on the kept cameras alone, it is [false] when no camera is kept,
    and otherwise it is the outcome of the segment loop over the kept
    cameras and their boundaries.  The same holds of the run on doubles. *)
Theorem light_prefilter requirements cams :
  (exists keep : HC.t -> bool,
     (forall c, keep c = false <->
        HC.maxLightLevel c < Req.minLightLevel requirements \/
        Req.maxLightLevel requirements < HC.minLightLevel c) /\
     relevantCameras requirements cams = filter keep cams /\
     canCoverRequirements requirements cams
       = canCoverRequirements requirements (filter keep cams) /\
     canCoverRequirementsDouble requirements cams
       = canCoverRequirementsDouble requirements (filter keep cams) /\
     (filter keep cams = [] ->
      canCoverRequirements requirements cams = false /\
      canCoverRequirementsDouble requirements cams = false) /\
     (filter keep cams <> [] ->
      canCoverRequirements requirements cams
        = checkSegments requirements (filter keep cams)
            (sortedLightBoundaries requirements (filter keep cams)) /\
      canCoverRequirementsDouble requirements cams
        = checkSegmentsWith midpointDouble requirements (filter keep cams)
            (sortedLightBoundaries requirements (filter keep cams)))) /\
  (relevantCameras requirements cams = [] ->
   canCoverRequirements requirements cams = false).
Proof.
  split.
  - exists (fun camera =>
       negb (ltb (HC.maxLightLevel camera) (Req.minLightLevel requirements)
             || ltb (Req.maxLightLevel requirements) (HC.minLightLevel camera))).
    fold (relevantCameras requirements cams).
    split; [|split; [reflexivity|]].
    { intros c. cbv beta. rewrite negb_false_iff, orb_true_iff.
      now rewrite !ltb_lt. }
    unfold canCoverRequirementsDouble, canCoverRequirementsWith,
      canCoverRequirements.
    cbv zeta. rewrite !relevantCameras_idempotent.
    split; [reflexivity|]. split; [reflexivity|]. split.
    + intros E. rewrite E. split; reflexivity.
    + intros Hne. destruct (relevantCameras requirements cams);
        [now contradiction Hne|]. split; reflexivity.
  - intros E. unfold canCoverRequirements. rewrite E. reflexivity.
Qed.

Lemma light_prefilter_witness :
  canCoverRequirements basicRequirements
    [HC.mk "dark"%string 1 10 0 5; HC.mk "bright"%string 1 10 2000 3000]
  = false.
Proof.
  apply (proj2 (light_prefilter basicRequirements
           [HC.mk "dark"%string 1 10 0 5; HC.mk "bright"%string 1 10 2000 3000])).
  reflexivity.
Defined.

(** C8: on the advanced example of the source (distance [1,15], light
    [5,2000], cameras lowLightCam, midRangeCam and brightLightCam)
    [canCoverRequirements] returns [false]. *)
Theorem advanced_example :
  canCoverRequirements advancedRequirements advancedCameras = false.
Proof. vm_compute. reflexivity. Qed.

(** C9: on a degenerate target ([minDistance] equal to [maxDistance])
    [canCoverDistanceRange] returns [true] exactly when some camera has
    [minDistance] at or below the target point, whether or not a camera's
    interval contains the point.  This holds for every camera list, so in
    particular for the non-empty lists of well-formed cameras. *)
Theorem canCoverDistanceRange_degenerate_target lo hi cams :
  lo == hi ->
  (canCoverDistanceRange lo hi cams = true <->
   exists c, In c cams /\ HC.minDistance c <= lo).
Proof.
  intros Heq. rewrite canCoverDistanceRange_reach. split.
  - intros Hr. inversion Hr as [c t Hin Hmin|c t Hin Hmin]; subst;
      now exists c.
  - intros (c & Hin & Hmin). apply reach_done with c; [exact Hin|exact Hmin|].
    pose proof (extend_ge lo c). lra.
Qed.

Lemma canCoverDistanceRange_degenerate_target_witness :
  canCoverDistanceRange 5 5 [nearCamera] = true /\
  ~ inDistance nearCamera 5.
Proof.
  split.
  - apply (proj2 (canCoverDistanceRange_degenerate_target 5 5 [nearCamera]
                    (Qeq_refl 5))).
    exists nearCamera. split; [now left|]. simpl. lra.
  - unfold inDistance. simpl. lra.
Defined.

Lemma sameDistance_dominated cams cams' :
  Forall2 sameDistance cams cams' -> dominated cams cams' /\ dominated cams' cams.
Proof.
  induction 1 as [|c c' l l' [Hmin Hmax] _ [IH1 IH2]].
  - split; intros c [].
  - split.
    + intros c0 [<-|Hc0].
      * exists c'. split; [now left|].
        unfold widerDistance. rewrite Hmin, Hmax. split; lra.
      * destruct (IH1 c0 Hc0) as (c1 & Hc1 & Hw).
        exists c1. split; [now right|exact Hw].
    + intros c0 [<-|Hc0].
      * exists c. split; [now left|].
        unfold widerDistance. rewrite Hmin, Hmax. split; lra.
      * destruct (IH2 c0 Hc0) as (c1 & Hc1 & Hw).
        exists c1. split; [now right|exact Hw].
Qed.

(** C10: two camera lists that agree position by position on [minDistance]
    and [maxDistance], whatever their [id], [minLightLevel] and
    [maxLightLevel], get the same result from [canCoverDistanceRange], for
    every target range. *)
Theorem canCoverDistanceRange_noninterference lo hi cams cams' :
  Forall2 sameDistance cams cams' ->
  canCoverDistanceRange lo hi cams = canCoverDistanceRange lo hi cams'.
Proof.
  intros H. apply sameDistance_dominated in H as [H1 H2].
  apply eq_true_iff_eq.
  split; now apply canCoverDistanceRange_dominated.
Qed.

Lemma canCoverDistanceRange_noninterference_witness :
  canCoverDistanceRange 1 10
    [HC.mk "cam1"%string 1 5 10 1000; HC.mk "cam2"%string 4 10 10 1000]
  = canCoverDistanceRange 1 10
    [HC.mk "x"%string 1 5 0 1; HC.mk "y"%string 4 10 7 7].
Proof.
  apply canCoverDistanceRange_noninterference.
  repeat constructor.
Defined.

(** ** Further properties of the coverage check *)

(** A rejected target with [lo <= hi] has a distance that no camera covers. *)
Lemma rejected_distance_gap lo hi cams :
  lo <= hi -> canCoverDistanceRange lo hi cams = false ->
  exists d, lo <= d <= hi /\ forall c, In c cams -> ~ inDistance c d.
Proof.
  intros Hle H. destruct (Qlt_le_dec lo hi) as [Hlt|Hge].
  - unfold canCoverDistanceRange in H.
    apply sweep_false_gap in H; [|apply sort_sorted|exact Hlt].
    destruct H as (d & Hd & Hno). exists d. split; [lra|].
    intros c Hc. apply Hno. now apply sort_In.
  - exists lo. split; [lra|]. intros c Hc [Hc1 Hc2].
    assert (Ht : canCoverDistanceRange lo hi cams = true).
    { apply canCoverDistanceRange_reach.
      apply reach_done with c; [exact Hc|exact Hc1|].
      pose proof (extend_ge lo c). lra. }
    congruence.
Qed.


(** X1: on a target with [minDistance < maxDistance],
    [canCoverDistanceRange] returns [true] exactly when every distance of
    the target lies in the distance interval of some camera. *)
Theorem distance_coverage_decided lo hi cams :
  lo < hi ->
  (canCoverDistanceRange lo hi cams = true <-> coversDistance lo hi cams).
Proof.
  intros Hlt. split.
  - intros H d Hd. apply canCoverDistanceRange_reach in H.
    exact (reach_covers cams hi lo H Hlt d Hd).
  - intros Hcov. apply coversDistance_accepted; [lra|exact Hcov].
Qed.

Lemma distance_coverage_decided_witness :
  canCoverDistanceRange 1 10 basicCameras = true <->
  coversDistance 1 10 basicCameras.
Proof.
  apply (distance_coverage_decided 1 10 basicCameras). reflexivity.
Defined.

(** X2: whenever [canCoverDistanceRange] returns [false] on a target with
    [minDistance <= maxDistance], some distance of the target lies in no
    camera's interval: the function never rejects a covered target. *)
Theorem distance_rejection_justified lo hi cams :
  lo <= hi -> canCoverDistanceRange lo hi cams = false ->
  exists d, lo <= d <= hi /\ forall c, In c cams -> ~ inDistance c d.
Proof. exact (rejected_distance_gap lo hi cams). Qed.

Lemma distance_rejection_justified_witness :
  exists d, 1 <= d <= 10 /\ forall c, In c gapCameras -> ~ inDistance c d.
Proof.
  apply (distance_rejection_justified 1 10 gapCameras).
  - vm_compute. discriminate.
  - vm_compute. reflexivity.
Defined.






(** X5: when the required light interval is not a single level, a [true]
    from [canCoverRequirements] implies a [true] from
    [canCoverDistanceRange] on the required distance interval with all the
    cameras, light levels ignored. *)
Theorem requirements_imply_distance_range requirements cams :
  ~ Req.minLightLevel requirements == Req.maxLightLevel requirements ->
  canCoverRequirements requirements cams = true ->
  canCoverDistanceRange (Req.minDistance requirements)
    (Req.maxDistance requirements) cams = true.
Proof.
  intros Hne H. apply canCoverRequirements_sample in H as [_ H].
  assert (Hx : exists x, sample requirements x).
  { destruct (Q_dec (Req.minLightLevel requirements)
                (Req.maxLightLevel requirements)) as [[Hlt|Hgt]|Heq].
    - exists (Req.minLightLevel requirements). left. split; [exact Hlt|lra].
    - eexists. right. split; [exact Hgt|reflexivity].
    - contradiction. }
  destruct Hx as (x & Hx).
  apply canCoverDistanceRange_dominated
    with (cams := camerasForLightLevel x (relevantCameras requirements cams));
    [|now apply H].
  apply dominated_incl. intros c Hc.
  apply camerasForLightLevel_In in Hc as [Hc _].
  now apply relevantCameras_In in Hc as [Hc _].
Qed.

Lemma requirements_imply_distance_range_witness :
  canCoverDistanceRange 1 10 basicCameras = true.
Proof.
  apply (requirements_imply_distance_range basicRequirements basicCameras).
  - vm_compute. discriminate.
  - vm_compute. reflexivity.
Defined.

(** X6: a camera whose light interval lies entirely below or entirely
    above the required light interval has no influence: the result with it
    in the list is the result without it. *)
Theorem irrelevant_camera_ignored requirements before camera after :
  outsideLight requirements camera ->
  canCoverRequirements requirements (before ++ camera :: after)
  = canCoverRequirements requirements (before ++ after).
Proof.
  intros Hout.
  assert (E : relevantCameras requirements (before ++ camera :: after)
              = relevantCameras requirements (before ++ after)).
  { unfold relevantCameras. rewrite !filter_app. f_equal. simpl.
    destruct Hout as [H|H]; apply ltb_lt in H; rewrite H;
      [reflexivity|now rewrite orb_true_r]. }
  unfold canCoverRequirements. now rewrite E.
Qed.

Lemma irrelevant_camera_ignored_witness :
  canCoverRequirements basicRequirements
    ([HC.mk "cam1"%string 1 5 10 1000]
       ++ HC.mk "night"%string 1 10 0 5 :: [HC.mk "cam2"%string 4 10 10 1000])
  = canCoverRequirements basicRequirements
    ([HC.mk "cam1"%string 1 5 10 1000] ++ [HC.mk "cam2"%string 4 10 10 1000]).
Proof.
  apply irrelevant_camera_ignored.
  left. reflexivity.
Defined.

Lemma sameEnvelope_lifted cams cams' :
  Forall2 sameEnvelope cams cams' -> lifted cams cams' /\ lifted cams' cams.
Proof.
  assert (Hw : forall c c', sameEnvelope c c' -> wider c c' /\ wider c' c).
  { intros c c' (H1 & H2 & H3 & H4). unfold wider, widerDistance.
    rewrite H1, H2, H3, H4. repeat split; lra. }
  induction 1 as [|c c' l l' Hc _ [IH1 IH2]].
  - split; intros c [].
  - destruct (Hw c c' Hc) as [Hw1 Hw2]. split.
    + intros c0 [<-|Hc0].
      * exists c'. split; [now left|exact Hw1].
      * destruct (IH1 c0 Hc0) as (c1 & Hc1 & H1).
        exists c1. split; [now right|exact H1].
    + intros c0 [<-|Hc0].
      * exists c. split; [now left|exact Hw2].
      * destruct (IH2 c0 Hc0) as (c1 & Hc1 & H1).
        exists c1. split; [now right|exact H1].
Qed.

(** X7: the [id] of a camera has no influence on [canCoverRequirements]:
    two camera lists that agree position by position on the four numeric
    fields get the same result. *)
Theorem requirements_id_noninterference requirements cams cams' :
  Forall2 sameEnvelope cams cams' ->
  canCoverRequirements requirements cams
  = canCoverRequirements requirements cams'.
Proof.
  intros H. apply sameEnvelope_lifted in H as [H1 H2].
  apply eq_true_iff_eq. split; now apply canCoverRequirements_lifted.
Qed.

Lemma requirements_id_noninterference_witness :
  canCoverRequirements basicRequirements basicCameras
  = canCoverRequirements basicRequirements
      [HC.mk "a"%string 1 5 10 1000; HC.mk "a"%string 4 10 10 1000].
Proof.
  apply requirements_id_noninterference.
  repeat constructor.
Defined.

(** X8: both functions depend only on which cameras occur in the list, not
    on how often: two lists with the same members, whatever their lengths
    and orders, get the same results. *)
Theorem duplicates_ignored requirements lo hi cams cams' :
  (forall c, In c cams <-> In c cams') ->
  canCoverRequirements requirements cams
    = canCoverRequirements requirements cams' /\
  canCoverDistanceRange lo hi cams = canCoverDistanceRange lo hi cams'.
Proof.
  intros H. split.
  - apply eq_true_iff_eq.
    split; apply canCoverRequirements_lifted; apply lifted_incl;
      intros c Hc; now apply H.
  - now apply canCoverDistanceRange_same_members.
Qed.

Lemma duplicates_ignored_witness :
  canCoverRequirements basicRequirements basicCameras
    = canCoverRequirements basicRequirements (basicCameras ++ basicCameras) /\
  canCoverDistanceRange 1 10 basicCameras
    = canCoverDistanceRange 1 10 (basicCameras ++ basicCameras).
Proof.
  apply duplicates_ignored.
  intros c. rewrite in_app_iff. tauto.
Defined.



(** ** Invariants of the light boundaries *)

Lemma StronglySorted_snoc {A} (R : A -> A -> Prop) s x :
  StronglySorted R s -> Forall (fun a => R a x) s ->
  StronglySorted R (s ++ [x]).
Proof.
  induction 1 as [|a s Hs IH Ha]; intros Hx; simpl.
  - repeat constructor.
  - inversion Hx as [|? ? Hax Hsx]; subst.
    constructor; [now apply IH|].
    apply Forall_app. split; [exact Ha|now constructor].
Qed.

Lemma set_add_distinct s x :
  StronglySorted (fun a b => ~ a == b) s ->
  StronglySorted (fun a b => ~ a == b) (set_add s x).
Proof.
  intros Hs. unfold set_add. destruct (set_has s x) eqn:E; [exact Hs|].
  apply StronglySorted_snoc; [exact Hs|].
  apply Forall_forall. intros a Ha Hax.
  assert (Hm : set_has s x = true) by (apply set_has_memQ; now exists a).
  congruence.
Qed.

Lemma set_add_length s x :
  (List.length s <= List.length (set_add s x) <= S (List.length s))%nat.
Proof.
  unfold set_add. destruct (set_has s x); [lia|].
  rewrite length_app. simpl. lia.
Qed.

Lemma addCameraBoundaries_distinct requirements s c :
  StronglySorted (fun a b => ~ a == b) s ->
  StronglySorted (fun a b => ~ a == b) (addCameraBoundaries requirements s c).
Proof.
  intros Hs. unfold addCameraBoundaries.
  repeat match goal with
  | |- context [if ?b then _ else _] => destruct b
  end; repeat apply set_add_distinct; exact Hs.
Qed.

Lemma addCameraBoundaries_length requirements s c :
  (List.length s <= List.length (addCameraBoundaries requirements s c)
   <= 2 + List.length s)%nat.
Proof.
  unfold addCameraBoundaries.
  pose proof (set_add_length s (HC.minLightLevel c)) as H1.
  pose proof (set_add_length s (HC.maxLightLevel c)) as H2.
  pose proof (set_add_length (set_add s (HC.minLightLevel c))
                (HC.maxLightLevel c)) as H3.
  repeat match goal with
  | |- context [if ?b then _ else _] => destruct b
  end; lia.
Qed.

Lemma lightBoundaries_distinct requirements rel :
  StronglySorted (fun a b => ~ a == b) (lightBoundaries requirements rel).
Proof.
  unfold lightBoundaries.
  assert (H0 : StronglySorted (fun a b : Q => ~ a == b)
                 (set_add (set_add [] (Req.minLightLevel requirements))
                    (Req.maxLightLevel requirements)))
    by (repeat apply set_add_distinct; constructor).
  revert H0. generalize (set_add (set_add [] (Req.minLightLevel requirements))
                           (Req.maxLightLevel requirements)) as s.
  induction rel as [|c rel IH]; intros s Hs; simpl; [exact Hs|].
  apply IH. now apply addCameraBoundaries_distinct.
Qed.

Lemma lightBoundaries_length requirements rel :
  (1 <= List.length (lightBoundaries requirements rel)
   <= 2 + 2 * List.length rel)%nat.
Proof.
  unfold lightBoundaries.
  assert (H0 : (1 <= List.length
                  (set_add (set_add [] (Req.minLightLevel requirements))
                     (Req.maxLightLevel requirements)) <= 2)%nat).
  { pose proof (set_add_length (set_add [] (Req.minLightLevel requirements))
                  (Req.maxLightLevel requirements)).
    change (set_add [] (Req.minLightLevel requirements))
      with [Req.minLightLevel requirements] in *.
    simpl in H. lia. }
  revert H0. generalize (set_add (set_add [] (Req.minLightLevel requirements))
                           (Req.maxLightLevel requirements)) as s.
  assert (G : forall s,
            (List.length s
             <= List.length (fold_left (addCameraBoundaries requirements) rel s)
             <= List.length s + 2 * List.length rel)%nat).
  { induction rel as [|c rel IH]; intros s; simpl; [lia|].
    pose proof (IH (addCameraBoundaries requirements s c)).
    pose proof (addCameraBoundaries_length requirements s c). lia. }
  intros s Hs. specialize (G s). lia.
Qed.

Lemma insert_strict x l :
  StronglySorted Qlt l -> Forall (fun a => ~ x == a) l ->
  StronglySorted Qlt (insert (fun y : Q => y) x l).
Proof.
  induction 1 as [|y l Hs IH Hy]; intros Hx; simpl.
  - repeat constructor.
  - inversion Hx as [|? ? Hxy Hxl]; subst.
    rewrite Forall_forall in Hy.
    destruct (leb x y) eqn:E; cmp.
    + assert (Hlt : x < y)
        by (destruct (Qle_lt_or_eq _ _ E); [assumption|contradiction]).
      constructor;
        [constructor; [exact Hs|apply Forall_forall; exact Hy]|].
      constructor; [exact Hlt|].
      apply Forall_forall. intros z Hz. specialize (Hy z Hz). lra.
    + constructor; [now apply IH|].
      apply Forall_forall. intros z Hz. apply insert_In in Hz as [->|Hz].
      * exact E.
      * now apply Hy.
Qed.

Lemma sort_strict l :
  StronglySorted (fun a b => ~ a == b) l ->
  StronglySorted Qlt (sort (fun y : Q => y) l).
Proof.
  induction 1 as [|x l Hs IH Hx]; simpl; [constructor|].
  apply insert_strict; [exact IH|].
  rewrite Forall_forall in *. intros a Ha. apply Hx.
  exact (proj1 (sort_In (fun y : Q => y) a l) Ha).
Qed.

(** X10: the sorted light boundaries are strictly increasing (so every
    segment has an interior), they contain both ends of the required light
    interval, and on a requirement with [minLightLevel <= maxLightLevel]
    every boundary lies inside the required light interval. *)
Theorem boundaries_strictly_increasing requirements rel :
  StronglySorted Qlt (sortedLightBoundaries requirements rel) /\
  memQ (sortedLightBoundaries requirements rel)
       (Req.minLightLevel requirements) /\
  memQ (sortedLightBoundaries requirements rel)
       (Req.maxLightLevel requirements) /\
  (Req.minLightLevel requirements <= Req.maxLightLevel requirements ->
   forall b, In b (sortedLightBoundaries requirements rel) ->
     Req.minLightLevel requirements <= b <= Req.maxLightLevel requirements).
Proof.
  split; [|split; [|split]].
  - apply sort_strict, lightBoundaries_distinct.
  - destruct (lightBoundaries_lo requirements rel) as (b & Hb & Eb).
    exists b. split; [now apply sortedLightBoundaries_In|exact Eb].
  - destruct (lightBoundaries_hi requirements rel) as (b & Hb & Eb).
    exists b. split; [now apply sortedLightBoundaries_In|exact Eb].
  - intros Hle b Hb.
    apply sortedLightBoundaries_In, lightBoundaries_In in Hb.
    destruct Hb as [->|[->|Hb]]; lra.
Qed.

Lemma boundaries_strictly_increasing_witness :
  5 <= 800 <= 2000.
Proof.
  apply (proj2 (proj2 (proj2
    (boundaries_strictly_increasing advancedRequirements advancedCameras)))).
  - vm_compute. discriminate.
  - vm_compute. tauto.
Defined.

(** X11: there is at least one light boundary and at most two more than
    twice the number of cameras given, so the segment loop runs at most
    [1 + 2 * cameras] times; when the required light interval has an
    interior there are at least two boundaries, so at least one segment is
    checked. *)
Theorem boundaries_count requirements rel :
  (1 <= List.length (sortedLightBoundaries requirements rel)
   <= 2 + 2 * List.length rel)%nat /\
  (Req.minLightLevel requirements < Req.maxLightLevel requirements ->
   (2 <= List.length (sortedLightBoundaries requirements rel))%nat).
Proof.
  assert (E : List.length (sortedLightBoundaries requirements rel)
              = List.length (lightBoundaries requirements rel)).
  { symmetry. apply Permutation_length.
    apply (sort_Permutation (fun y : Q => y)). }
  split.
  - rewrite E. apply lightBoundaries_length.
  - intros Hlt.
    destruct (lightBoundaries_lo requirements rel) as (b0 & Hb0 & Eb0).
    destruct (lightBoundaries_hi requirements rel) as (b1 & Hb1 & Eb1).
    rewrite E.
    destruct (lightBoundaries requirements rel) as [|x [|y l]]; simpl;
      [contradiction| |lia].
    destruct Hb0 as [<-|[]], Hb1 as [<-|[]]. lra.
Qed.

Lemma boundaries_count_witness :
  (2 <= List.length (sortedLightBoundaries advancedRequirements advancedCameras))%nat.
Proof.
  apply (proj2 (boundaries_count advancedRequirements advancedCameras)).
  reflexivity.
Defined.

(** ** The mocked deadline endpoint *)

Lemma string_length_append s1 s2 :
  String.length (String.append s1 s2)
  = (String.length s1 + String.length s2)%nat.
Proof. induction s1 as [|c s1 IH]; simpl; [reflexivity|now rewrite IH]. Qed.

Lemma substring_all s : substring 0 (String.length s) s = s.
Proof. induction s as [|c s IH]; simpl; [reflexivity|now rewrite IH]. Qed.

Lemma substring_after_prefix p s :
  substring (String.length p) (String.length s) (String.append p s) = s.
Proof. induction p as [|c p IH]; simpl; [apply substring_all|exact IH]. Qed.

Lemma substring_split s : forall k, (k <= String.length s)%nat ->
  s = String.append (substring 0 k s) (substring k (String.length s - k) s).
Proof.
  induction s as [|c s IH]; intros k Hk; simpl in Hk.
  - assert (k = 0%nat) by lia. subst. reflexivity.
  - destruct k as [|k].
    + simpl. now rewrite substring_all.
    + simpl. f_equal. apply IH. lia.
Qed.

(** [endsWith] holds exactly of the strings that are some prefix followed
    by the search string. *)
Lemma endsWith_spec s searchString :
  endsWith s searchString = true <->
  exists p, s = String.append p searchString.
Proof.
  unfold endsWith. cbv zeta. rewrite andb_true_iff, Nat.leb_le, String.eqb_eq.
  split.
  - intros [Hle Hsub].
    exists (substring 0 (String.length s - String.length searchString) s).
    pose proof (substring_split s
                  (String.length s - String.length searchString)) as Hs.
    replace (String.length s - (String.length s - String.length searchString))%nat
      with (String.length searchString) in Hs by lia.
    rewrite Hsub in Hs. apply Hs. lia.
  - intros (p & ->). rewrite string_length_append. split; [lia|].
    replace (String.length p + String.length searchString
             - String.length searchString)%nat
      with (String.length p) by lia.
    apply substring_after_prefix.
Qed.

Lemma secondsLeftAt_floor target now :
  ((now <= target)%Z ->
   (1000 * secondsLeftAt target now <= target - now
    < 1000 * secondsLeftAt target now + 1000)%Z) /\
  ((target - now < 1000)%Z -> secondsLeftAt target now = 0%Z).
Proof.
  unfold secondsLeftAt. split; intros;
    Z.to_euclidean_division_equations; lia.
Qed.

(** X13: the number of seconds the mocked endpoint reports is never
    negative; before the target it is the number of whole seconds left
    (the remaining time is at least that many seconds and less than one
    second more); from one second before the target on it is 0. *)
Theorem secondsLeftAt_bounds target now :
  (0 <= secondsLeftAt target now)%Z /\
  ((now <= target)%Z ->
   (1000 * secondsLeftAt target now <= target - now
    < 1000 * secondsLeftAt target now + 1000)%Z) /\
  ((target - now < 1000)%Z -> secondsLeftAt target now = 0%Z).
Proof.
  unfold secondsLeftAt. repeat split; intros;
    Z.to_euclidean_division_equations; lia.
Qed.

Lemma secondsLeftAt_bounds_witness :
  (1000 * secondsLeftAt 10500 4000 <= 10500 - 4000
   < 1000 * secondsLeftAt 10500 4000 + 1000)%Z /\
  secondsLeftAt 10500 9700 = 0%Z.
Proof.
  split.
  - apply (proj1 (proj2 (secondsLeftAt_bounds 10500 4000))). lia.
  - apply (proj2 (proj2 (secondsLeftAt_bounds 10500 9700))). lia.
Defined.

(** X14: the reported number of seconds never grows as time passes, and
    while at least one second is left it is exactly one less when asked
    1000 milliseconds later, the polling period of the service. *)
Theorem secondsLeftAt_countdown target now :
  (forall later, (now <= later)%Z ->
     (secondsLeftAt target later <= secondsLeftAt target now)%Z) /\
  ((1000 <= target - now)%Z ->
   secondsLeftAt target (now + 1000) = (secondsLeftAt target now - 1)%Z).
Proof.
  unfold secondsLeftAt. split.
  - intros later Hle.
    apply Z.max_le_compat_l. apply Z.div_le_mono; lia.
  - intros H.
    replace (target - (now + 1000))%Z with (target - now + (-1) * 1000)%Z by lia.
    rewrite Z.div_add by lia.
    assert (1 <= (target - now) / 1000)%Z
      by (apply Z.div_le_lower_bound; lia).
    lia.
Qed.

Lemma secondsLeftAt_countdown_witness :
  (secondsLeftAt 10500 7000 <= secondsLeftAt 10500 4000)%Z /\
  secondsLeftAt 10500 (4000 + 1000) = (secondsLeftAt 10500 4000 - 1)%Z.
Proof.
  split.
  - apply (proj1 (secondsLeftAt_countdown 10500 4000)). lia.
  - apply (proj2 (secondsLeftAt_countdown 10500 4000)). lia.
Defined.

(** X15: a request whose URL ends in [/api/deadline] is answered by the
    interceptor itself, with status 200, the JSON content type and a
    non-negative [secondsLeft], whatever the backend handler is; every
    other request is handed to the backend handler unchanged. *)
Theorem interceptor_routing (HttpRequest Observable : Type)
    (url : HttpRequest -> string) (rxOf : HttpResponse.t -> Observable)
    (timezoneOffset now : Z) (req : HttpRequest)
    (next : HttpRequest -> Observable) :
  ((exists p, url req = String.append p "/api/deadline") ->
   (exists response,
      deadlineMockInterceptor HttpRequest Observable url rxOf
        timezoneOffset now req next = rxOf response /\
      HttpResponse.status response = 200%Z /\
      HttpResponse.headers response
        = [("Content-Type"%string, "application/json"%string)] /\
      (0 <= HttpResponse.secondsLeft (HttpResponse.responseBody response))%Z) /\
   (forall next',
      deadlineMockInterceptor HttpRequest Observable url rxOf
        timezoneOffset now req next'
      = deadlineMockInterceptor HttpRequest Observable url rxOf
          timezoneOffset now req next)) /\
  (~ (exists p, url req = String.append p "/api/deadline") ->
   deadlineMockInterceptor HttpRequest Observable url rxOf
     timezoneOffset now req next = next req).
Proof.
  unfold deadlineMockInterceptor. split.
  - intros H. apply endsWith_spec in H. rewrite H. split.
    + eexists. split; [reflexivity|]. simpl. repeat split.
      unfold secondsLeftAt. lia.
    + reflexivity.
  - intros H.
    destruct (endsWith (url req) "/api/deadline") eqn:E; [|reflexivity].
    apply endsWith_spec in E. contradiction.
Qed.

Lemma interceptor_routing_witness :
  (forall next' : string -> HttpResponse.t + string,
     deadlineMockInterceptor string (HttpResponse.t + string)%type
       (fun u => u) inl 0 0 "http://localhost:4200/api/deadline"%string next'
     = deadlineMockInterceptor string (HttpResponse.t + string)%type
       (fun u => u) inl 0 0 "http://localhost:4200/api/deadline"%string inr) /\
  deadlineMockInterceptor string (HttpResponse.t + string)%type
    (fun u => u) inl 0 0 "/api/deadline?x=1"%string inr
  = inr "/api/deadline?x=1"%string.
Proof.
  split.
  - apply (proj1 (interceptor_routing string (HttpResponse.t + string)%type
             (fun u => u) inl 0 0 "http://localhost:4200/api/deadline"%string inr)).
    exists "http://localhost:4200"%string. reflexivity.
  - apply (proj2 (interceptor_routing string (HttpResponse.t + string)%type
             (fun u => u) inl 0 0 "/api/deadline?x=1"%string inr)).
    intros H. apply endsWith_spec in H. vm_compute in H. discriminate.
Defined.

(** X16: when the service handles the answer the mocked endpoint computed
    at time [asked], the [secondsLeft] signal is that answer and the
    [targetDate] signal is the text of a time [shown] with: before the
    target, [shown] minus the delay since [asked] lies within the last
    second up to the target; once less than a second is left, [shown] is
    the time at which the answer is handled, not the target. *)
Theorem service_target_estimate (dateToString : Z -> string)
    (target asked handled : Z) (state : DeadlineService.t) :
  let state' :=
    DeadlineService.onResponse dateToString handled
      (HttpResponse.mkBody (secondsLeftAt target asked)) state in
  DeadlineService.secondsLeft state' = secondsLeftAt target asked /\
  exists shown,
    DeadlineService.targetDate state' = dateToString shown /\
    ((asked <= target)%Z ->
     (target - 1000 < shown - (handled - asked) <= target)%Z) /\
    ((target - asked < 1000)%Z -> shown = handled).
Proof.
  cbv zeta. split; [reflexivity|].
  eexists. split; [reflexivity|]. simpl.
  destruct (secondsLeftAt_floor target asked) as (H1 & H2).
  split; intros H.
  - specialize (H1 H). lia.
  - rewrite (H2 H). lia.
Qed.

Lemma service_target_estimate_witness :
  exists shown : Z, (10500 - 1000 < shown - (4010 - 4000) <= 10500)%Z.
Proof.
  destruct (service_target_estimate (fun _ => EmptyString) 10500 4000 4010
              DeadlineService.initial) as (_ & shown & _ & H & _).
  exists shown. apply H. lia.
Defined.
